(** * Elements of finitely generated free graded left modules

    A shallow embedding of [sage/modules/fp_graded/free_element.py]
    (class [FreeGradedModuleElement]) together with the properties its
    specification states.

    The algebra the module is defined over and the parent module are
    collaborators of the class: the algebra is an interface
    ([GradedAlgebra]), the parent a record of the answers it gives
    ([FreeGradedModule]).  Python exceptions are values of [exn]; a method
    that may raise returns a [result]. *)

From stdpp Require Import base option list strings countable gmap.
From Stdlib Require Import ZArith Lia.

Open Scope Z_scope.

(** ** Exceptions and results *)

Inductive exn : Type :=
  | ValueError (msg : string)
  | KeyError.

Inductive result (T : Type) : Type :=
  | Ok (v : T)
  | Raise (e : exn).
Arguments Ok {T} v.
Arguments Raise {T} e.

#[export] Instance result_ret : MRet result := @Ok.
#[export] Instance result_bind : MBind result := λ T U f r,
  match r with
  | Ok v => f v
  | Raise e => Raise e
  end.

Definition zero_degree_msg : string :=
  "the zero element does not have a well-defined degree".
Definition nonhomogeneous_msg : string :=
  "this is a nonhomogeneous element, no well-defined degree".
Definition empty_min_msg : string := "min() arg is an empty sequence".
Definition empty_max_msg : string := "max() arg is an empty sequence".

(** Python's [min] and [max] on a list of integers: an empty argument
    raises [ValueError]. *)
Definition py_min (l : list Z) : result Z :=
  match l with
  | [] => Raise (ValueError empty_min_msg)
  | d :: ds => Ok (foldl Z.min d ds)
  end.

Definition py_max (l : list Z) : result Z :=
  match l with
  | [] => Raise (ValueError empty_max_msg)
  | d :: ds => Ok (foldl Z.max d ds)
  end.

(** [enumerate(l)]: the entries of [l] paired with their positions. *)
Fixpoint enumerate_from {T : Type} (start : nat) (l : list T) : list (nat * T) :=
  match l with
  | [] => []
  | x :: rest => (start, x) :: enumerate_from (S start) rest
  end.

Definition enumerate {T : Type} (l : list T) : list (nat * T) := enumerate_from 0 l.

(** [dict(pairs)]: the pairs are inserted from left to right, so of two
    pairs with one key the later one stays. *)
Definition dict `{Countable Key} {V : Type} (pairs : list (Key * V)) : gmap Key V :=
  foldl (λ d kv, <[kv.1 := kv.2]> d) ∅ pairs.

(** [d[k]]: a missing key raises [KeyError]. *)
Definition dict_getitem `{Countable Key} {V : Type} (d : gmap Key V) (k : Key) : result V :=
  match d !! k with
  | Some v => Ok v
  | None => Raise KeyError
  end.

(** ** The algebra

    What the class asks of an element of the algebra and of its ground
    field: ring operations, truth value ([a_is_zero] is [is_zero()], and
    [if c:] is its negation), [degree()] (which may raise), the
    decomposition into scalar coefficients and monomials, and the
    coercion of a scalar into the algebra, through which a scalar acts on
    a module element. *)
Class GradedAlgebra (K A : Type) `{Countable A} : Type := {
  k_zero : K;
  k_one : K;
  k_add : K → K → K;
  k_mul : K → K → K;
  a_zero : A;
  a_one : A;
  a_add : A → A → A;
  a_mul : A → A → A;
  a_of_scalar : K → A;
  a_is_zero : A → bool;
  a_degree : A → result Z;
  a_coefficients : A → list K;
  a_monomials : A → list A;
}.

Section FreeElement.
Context {K A : Type} `{GradedAlgebra K A}.

(** ** Data model *)

(** An element is its dense list of coefficients, one per generator of
    the parent. *)
Record FreeGradedModuleElement : Type := Element {
  dense_coefficient_list : list A;
}.

#[export] Instance element_eq_dec : EqDecision FreeGradedModuleElement.
Proof. solve_decision. Defined.

#[export] Instance element_countable : Countable FreeGradedModuleElement :=
  inj_countable' dense_coefficient_list Element (λ x, match x with Element _ => eq_refl end).

(** The vector space [P.vector_presentation(n)]: coordinate vectors of a
    fixed length over the ground field. *)
Record VectorSpace : Type := { dimension : nat }.

Definition vs_zero (V : VectorSpace) : list K := replicate (dimension V) k_zero.

Definition unit_vector (d k : nat) : list K := <[k := k_one]> (replicate d k_zero).

Definition vs_basis (V : VectorSpace) : list (list K) :=
  unit_vector (dimension V) <$> seq 0 (dimension V).

Definition vec_scale (s : K) (v : list K) : list K := k_mul s <$> v.
Definition vec_add (v w : list K) : list K := zip_with k_add v w.

(** The parent module, as the element sees it. *)
Record FreeGradedModule : Type := {
  generator_degrees : list Z;
  basis_elements : Z → list FreeGradedModuleElement;
  parent_vector_presentation : Z → VectorSpace;
}.

(** Modelled from the spec: the parent's element constructor, which is
    not part of this file's source; it builds the element whose
    coefficients are the given sequence, of the length of the generator
    list. *)
Definition element_constructor (P : FreeGradedModule) (coeffs : list A)
  : FreeGradedModuleElement := Element coeffs.

(** Modelled from the spec: [P.generator(i)], the i-th generator as a
    module element: coefficient one at position [i], zero elsewhere. *)
Definition unit_coefficients (ngens i : nat) : list A :=
  <[i := a_one]> (replicate ngens a_zero).

Definition generator (P : FreeGradedModule) (i : nat) : FreeGradedModuleElement :=
  Element (unit_coefficients (length (generator_degrees P)) i).

(** Modelled from the spec: the inherited [is_zero()]: every coefficient
    is zero in the algebra. *)
Definition is_zero (x : FreeGradedModuleElement) : bool :=
  forallb a_is_zero (dense_coefficient_list x).

(** Modelled from the spec: the inherited addition, coefficient by
    coefficient, and the zero element of the parent. *)
Definition add (x y : FreeGradedModuleElement) : FreeGradedModuleElement :=
  Element (zip_with a_add (dense_coefficient_list x) (dense_coefficient_list y)).

Definition zero (P : FreeGradedModule) : FreeGradedModuleElement :=
  Element (replicate (length (generator_degrees P)) a_zero).

(** ** The methods of [FreeGradedModuleElement] *)

Definition coefficients (self : FreeGradedModuleElement) : list A :=
  dense_coefficient_list self.

(** The loop of [degree]: [degrees] is the list built so far; the first
    coefficient whose [degree()] raises ends the loop with that
    exception. *)
Fixpoint degree_loop (pairs : list (Z * A)) (degrees : list Z) : result (list Z) :=
  match pairs with
  | [] => Ok degrees
  | (g, c) :: rest =>
      if a_is_zero c then degree_loop rest degrees
      else d ← a_degree c; degree_loop rest (degrees ++ [g + d])
  end.

Definition degree (P : FreeGradedModule) (self : FreeGradedModuleElement) : result Z :=
  if is_zero self then Raise (ValueError zero_degree_msg)
  else
    match degree_loop (zip (generator_degrees P) (coefficients self)) [] with
    | Raise (ValueError _) => Raise (ValueError nonhomogeneous_msg)
    | Raise e => Raise e
    | Ok degrees =>
        m ← py_min degrees;
        M ← py_max degrees;
        if decide (m = M) then Ok m
        else Raise (ValueError nonhomogeneous_msg)
    end.

Definition lift_to_free (self : FreeGradedModuleElement) : FreeGradedModuleElement := self.

Definition _lmul_ (P : FreeGradedModule) (self : FreeGradedModuleElement) (a : A)
  : FreeGradedModuleElement :=
  element_constructor P (a_mul a <$> coefficients self).

(** The inner loop of [vector_presentation]: the terms of one
    coefficient, each looked up in [base_dict] and added to [vector]. *)
Fixpoint terms_loop (P : FreeGradedModule)
    (base_dict : gmap FreeGradedModuleElement (list K))
    (g : FreeGradedModuleElement) (terms : list (K * A)) (vector : list K)
  : result (list K) :=
  match terms with
  | [] => Ok vector
  | (scalar_coefficient, monomial) :: rest =>
      e ← dict_getitem base_dict (_lmul_ P g monomial);
      terms_loop P base_dict g rest (vec_add vector (vec_scale scalar_coefficient e))
  end.

(** The outer loop, over the nonzero coefficients. *)
Fixpoint summands_loop (P : FreeGradedModule)
    (base_dict : gmap FreeGradedModuleElement (list K))
    (sparse_coeffs : list (nat * A)) (vector : list K) : result (list K) :=
  match sparse_coeffs with
  | [] => Ok vector
  | (summand_index, algebra_element) :: rest =>
      let g := generator P summand_index in
      vector' ← terms_loop P base_dict g
        (zip (a_coefficients algebra_element) (a_monomials algebra_element)) vector;
      summands_loop P base_dict rest vector'
  end.

Definition vector_presentation (P : FreeGradedModule) (self : FreeGradedModuleElement)
  : result (option (list K)) :=
  if is_zero self then Ok None
  else
    n ← degree P self;
    let bas_gen := basis_elements P n in
    n' ← degree P self;
    let base_vec := parent_vector_presentation P n' in
    let base_dict := dict (zip bas_gen (vs_basis base_vec)) in
    let sparse_coeffs :=
      List.filter (λ x, negb (a_is_zero x.2)) (enumerate (coefficients self)) in
    vector ← summands_loop P base_dict sparse_coeffs (vs_zero base_vec);
    Ok (Some vector).

(** ** What the properties are stated with *)

(** The sum [sum(scalar * basis_element for (scalar, basis_element) in
    zip(v, P.basis_elements(n)))]: a scalar acts through its image in the
    algebra, and the sum starts at zero and adds from left to right. *)
Definition basis_expansion (P : FreeGradedModule) (v : list K) (n : Z)
  : FreeGradedModuleElement :=
  foldl (λ acc sb, add acc (_lmul_ P sb.2 (a_of_scalar sb.1)))
        (zero P) (zip v (basis_elements P n)).

(** The positions of the nonzero coefficients, and the term degree
    [generator_degree[i] + coefficients[i].degree()] at a position. *)
Definition nonzero_indices (x : FreeGradedModuleElement) : list nat :=
  fst <$> List.filter (λ ic, negb (a_is_zero ic.2)) (enumerate (coefficients x)).

Definition term_degree (P : FreeGradedModule) (x : FreeGradedModuleElement) (i : nat)
  : option Z :=
  match generator_degrees P !! i, coefficients x !! i with
  | Some g, Some c =>
      match a_degree c with
      | Ok d => Some (g + d)
      | Raise _ => None
      end
  | _, _ => None
  end.

(** The sum of the terms [scalar * monomial] of a decomposition. *)
Definition a_sum_terms (terms : list (K * A)) : A :=
  foldr (λ sm acc, a_add (a_mul (a_of_scalar sm.1) sm.2) acc) a_zero terms.

(** The same sum, adding from the right, and the sums of the module
    elements that the two loops of [vector_presentation] go through. *)
Fixpoint expansion (P : FreeGradedModule) (v : list K)
    (basis : list FreeGradedModuleElement) : FreeGradedModuleElement :=
  match v, basis with
  | s :: v', b :: basis' => add (_lmul_ P b (a_of_scalar s)) (expansion P v' basis')
  | _, _ => zero P
  end.

Definition terms_sum (P : FreeGradedModule) (g : FreeGradedModuleElement)
    (terms : list (K * A)) : FreeGradedModuleElement :=
  foldr (λ sm acc, add (_lmul_ P (_lmul_ P g sm.2) (a_of_scalar sm.1)) acc)
        (zero P) terms.

Definition summands_sum (P : FreeGradedModule) (sparse_coeffs : list (nat * A))
  : FreeGradedModuleElement :=
  foldr (λ ic acc,
           add (terms_sum P (generator P ic.1)
                  (zip (a_coefficients ic.2) (a_monomials ic.2))) acc)
        (zero P) sparse_coeffs.

(** The laws of the algebra that the round trip rests on. *)
Class AlgebraLaws : Prop := {
  a_add_comm : ∀ a b, a_add a b = a_add b a;
  a_add_assoc : ∀ a b c, a_add a (a_add b c) = a_add (a_add a b) c;
  a_add_zero_r : ∀ a, a_add a a_zero = a;
  a_mul_zero_l : ∀ a, a_mul a_zero a = a_zero;
  a_mul_zero_r : ∀ a, a_mul a a_zero = a_zero;
  a_mul_one_r : ∀ a, a_mul a a_one = a;
  a_mul_assoc : ∀ a b c, a_mul a (a_mul b c) = a_mul (a_mul a b) c;
  a_mul_add_distr_r : ∀ a b c, a_mul (a_add a b) c = a_add (a_mul a c) (a_mul b c);
  a_mul_add_distr_l : ∀ a b c, a_mul a (a_add b c) = a_add (a_mul a b) (a_mul a c);
  a_of_scalar_zero : a_of_scalar k_zero = a_zero;
  a_of_scalar_add : ∀ s t, a_of_scalar (k_add s t) = a_add (a_of_scalar s) (a_of_scalar t);
  k_mul_zero_r : ∀ s, k_mul s k_zero = k_zero;
  k_mul_one_r : ∀ s, k_mul s k_one = s;
  a_is_zero_true : ∀ a, a_is_zero a = true → a = a_zero;
  a_decomposition : ∀ a, a_sum_terms (zip (a_coefficients a) (a_monomials a)) = a;
}.

(** The invariant of the data model: an element of [P] has one
    coefficient per generator of [P]. *)
Definition in_parent (P : FreeGradedModule) (x : FreeGradedModuleElement) : Prop :=
  length (coefficients x) = length (generator_degrees P).

(** What the element expects of its parent in degree [n]: the vector
    space has one coordinate per basis element, and the basis elements
    are elements of the parent. *)
Record basis_contract (P : FreeGradedModule) (n : Z) : Prop := {
  basis_dimension :
    dimension (parent_vector_presentation P n) = length (basis_elements P n);
  basis_in_parent : ∀ b, b ∈ basis_elements P n → in_parent P b;
}.

(** Every product of a monomial of a nonzero coefficient of [x] with its
    generator is among the basis elements of degree [n]. *)
Definition basis_covers (P : FreeGradedModule) (x : FreeGradedModuleElement) (n : Z)
  : Prop :=
  ∀ i c s m, coefficients x !! i = Some c → a_is_zero c = false →
    (s, m) ∈ zip (a_coefficients c) (a_monomials c) →
    _lmul_ P (generator P i) m ∈ basis_elements P n.

End FreeElement.

Arguments FreeGradedModuleElement A : clear implicits.
Arguments FreeGradedModule A : clear implicits.


(** ** A small algebra to run the methods on

    The algebra [Z ⊕ Z·a ⊕ Z·b ⊕ Z·c] over the integers with [a] and [b] of
    degree 6, [c] of degree 7 and all products of [a], [b], [c] zero: a
    connected graded algebra with two monomials in one degree. *)
Module SmallAlgebra.

Record small : Type := Small { s_unit : Z; s_a : Z; s_b : Z; s_c : Z }.

#[export] Instance small_eq_dec : EqDecision small.
Proof. solve_decision. Defined.

#[export] Instance small_countable : Countable small :=
  inj_countable' (λ x, (s_unit x, s_a x, s_b x, s_c x))
    (λ t, match t with (u, a, b, c) => Small u a b c end)
    (λ x, match x with Small _ _ _ _ => eq_refl end).

Definition small_zero : small := Small 0 0 0 0.
Definition small_one : small := Small 1 0 0 0.
Definition mon_a : small := Small 0 1 0 0.
Definition mon_b : small := Small 0 0 1 0.
Definition mon_c : small := Small 0 0 0 1.

Definition small_add (x y : small) : small :=
  Small (s_unit x + s_unit y) (s_a x + s_a y) (s_b x + s_b y) (s_c x + s_c y).

Definition small_mul (x y : small) : small :=
  Small (s_unit x * s_unit y)
        (s_unit x * s_a y + s_a x * s_unit y)
        (s_unit x * s_b y + s_b x * s_unit y)
        (s_unit x * s_c y + s_c x * s_unit y).

Definition small_of_scalar (k : Z) : small := Small k 0 0 0.

Definition small_is_zero (x : small) : bool :=
  (s_unit x =? 0) && (s_a x =? 0) && (s_b x =? 0) && (s_c x =? 0).

Definition small_degree (x : small) : result Z :=
  match s_unit x =? 0, (s_a x =? 0) && (s_b x =? 0), s_c x =? 0 with
  | true, true, true => Raise (ValueError zero_degree_msg)
  | false, true, true => Ok 0
  | true, false, true => Ok 6
  | true, true, false => Ok 7
  | _, _, _ => Raise (ValueError "element is not homogeneous")
  end.

(** The terms of an element: its nonzero scalars, each with its
    monomial. *)
Definition small_terms (x : small) : list (Z * small) :=
  List.filter (λ t, negb (t.1 =? 0))
    [(s_unit x, small_one); (s_a x, mon_a); (s_b x, mon_b); (s_c x, mon_c)].

#[export] Instance small_algebra : GradedAlgebra Z small := {|
  k_zero := 0;
  k_one := 1;
  k_add := Z.add;
  k_mul := Z.mul;
  a_zero := small_zero;
  a_one := small_one;
  a_add := small_add;
  a_mul := small_mul;
  a_of_scalar := small_of_scalar;
  a_is_zero := small_is_zero;
  a_degree := small_degree;
  a_coefficients := λ x, fst <$> small_terms x;
  a_monomials := λ x, snd <$> small_terms x;
|}.

(** The monomials of the algebra in one degree. *)
Definition small_basis (l : Z) : list small :=
  if decide (l = 0) then [small_one]
  else if decide (l = 6) then [mon_a; mon_b]
  else if decide (l = 7) then [mon_c]
  else [].

(** The free module on generators of the degrees [degs]: its basis in
    degree [n] lists, generator by generator, the products of the
    monomials of degree [n - g] with the generator. *)
Definition free_basis (degs : list Z) (n : Z) : list (FreeGradedModuleElement small) :=
  concat (imap (λ i g,
    (λ m, Element (a_mul m <$> unit_coefficients (length degs) i))
      <$> small_basis (n - g)) degs).

Definition free_module (degs : list Z) : FreeGradedModule small := {|
  generator_degrees := degs;
  basis_elements := free_basis degs;
  parent_vector_presentation := λ n, {| dimension := length (free_basis degs n) |};
|}.

Definition M01 : FreeGradedModule small := free_module [0; 1].

Definition q : small := small_add mon_a mon_b.

(** [x = q*g0 + 1*g1]. *)
Definition x_q1 : FreeGradedModuleElement small :=
  add (_lmul_ M01 (generator M01 0) q) (_lmul_ M01 (generator M01 1) small_one).

(** [c*g0 + q*g1], homogeneous of degree 7. *)
Definition x_cq : FreeGradedModuleElement small :=
  add (_lmul_ M01 (generator M01 0) mon_c) (_lmul_ M01 (generator M01 1) q).

(** The same algebra with the two lists of a decomposition each in its
    own order, as [coefficients()] and [monomials()] give them: the
    scalars in the sorted order of their keys, the monomials in the order
    in which the terms are stored, here the reverse one (an element built
    as [(-3)*b + 2*a] stores [b] before [a]). *)
Definition stored_order_algebra : GradedAlgebra Z small := {|
  k_zero := 0;
  k_one := 1;
  k_add := Z.add;
  k_mul := Z.mul;
  a_zero := small_zero;
  a_one := small_one;
  a_add := small_add;
  a_mul := small_mul;
  a_of_scalar := small_of_scalar;
  a_is_zero := small_is_zero;
  a_degree := small_degree;
  a_coefficients := λ x, fst <$> small_terms x;
  a_monomials := λ x, reverse (snd <$> small_terms x);
|}.

(** [5c*g0 + (2a - 3b)*g1], homogeneous of degree 7. *)
Definition x_523 : FreeGradedModuleElement small :=
  Element [Small 0 0 0 5; Small 0 2 (-3) 0].

(** A parent that leaves the first basis element of every degree out. *)
Definition M01_short : FreeGradedModule small := {|
  generator_degrees := [0; 1];
  basis_elements := λ n, tail (free_basis [0; 1] n);
  parent_vector_presentation := λ n, {| dimension := length (tail (free_basis [0; 1] n)) |};
|}.

(** [a*g0 + (1 + a)*g1]: the second coefficient is not homogeneous. *)
Definition x_inhomogeneous : FreeGradedModuleElement small :=
  Element [mon_a; small_add small_one mon_a].

End SmallAlgebra.

(** * Properties *)

Section FreeElementProperties.
Context {K A : Type} `{GradedAlgebra K A}.

Implicit Types (P : FreeGradedModule A) (x y : FreeGradedModuleElement A).
Implicit Types (a b c : A) (v w : list K).

(** ** Lists, minima and maxima *)

Lemma foldl_min_le (l : list Z) (d0 : Z) :
  foldl Z.min d0 l ≤ d0 ∧ ∀ d, d ∈ l → foldl Z.min d0 l ≤ d.
Proof.
  revert d0. induction l as [|e l IH]; intros d0; simpl.
  - split; [lia | intros d Hd; by apply elem_of_nil in Hd].
  - destruct (IH (Z.min d0 e)) as [Hle Hall]. split; [lia |].
    intros d [->|Hd]%elem_of_cons; [lia | by apply Hall].
Qed.

Lemma foldl_max_ge (l : list Z) (d0 : Z) :
  d0 ≤ foldl Z.max d0 l ∧ ∀ d, d ∈ l → d ≤ foldl Z.max d0 l.
Proof.
  revert d0. induction l as [|e l IH]; intros d0; simpl.
  - split; [lia | intros d Hd; by apply elem_of_nil in Hd].
  - destruct (IH (Z.max d0 e)) as [Hle Hall]. split; [lia |].
    intros d [->|Hd]%elem_of_cons; [lia | by apply Hall].
Qed.

Lemma py_min_le (l : list Z) (m d : Z) : py_min l = Ok m → d ∈ l → m ≤ d.
Proof.
  destruct l as [|d0 l]; simpl; [done |]. intros [= <-] Hd.
  destruct (foldl_min_le l d0) as [Hle Hall].
  apply elem_of_cons in Hd as [->|Hd]; [done | by apply Hall].
Qed.

Lemma py_max_ge (l : list Z) (M d : Z) : py_max l = Ok M → d ∈ l → d ≤ M.
Proof.
  destruct l as [|d0 l]; simpl; [done |]. intros [= <-] Hd.
  destruct (foldl_max_ge l d0) as [Hle Hall].
  apply elem_of_cons in Hd as [->|Hd]; [done | by apply Hall].
Qed.

Lemma py_min_max_nonempty (l : list Z) :
  l ≠ [] → ∃ m M, py_min l = Ok m ∧ py_max l = Ok M.
Proof. destruct l; [done |]. intros _. simpl. eauto. Qed.

Lemma elem_of_enumerate_from {T : Type} (l : list T) (start i : nat) (t : T) :
  (i, t) ∈ enumerate_from start l ↔ (start ≤ i)%nat ∧ l !! (i - start)%nat = Some t.
Proof.
  revert start. induction l as [|u l IH]; intros start; simpl.
  - rewrite elem_of_nil. split; [done | intros [_ Hl]; by rewrite lookup_nil in Hl].
  - rewrite elem_of_cons, IH. split.
    + intros [Heq|[Hle Hl]].
      * injection Heq as Hi Ht. subst i t.
        split; [lia |]. by replace (start - start)%nat with 0%nat by lia.
      * split; [lia |]. by replace (i - start)%nat with (S (i - S start)) by lia.
    + intros [Hle Hl]. destruct (decide (i = start)) as [->|Hne].
      * left. replace (start - start)%nat with 0%nat in Hl by lia.
        simpl in Hl. congruence.
      * right. split; [lia |].
        by replace (i - start)%nat with (S (i - S start)) in Hl by lia.
Qed.

Lemma elem_of_filter_bool {T : Type} (p : T → bool) (l : list T) (t : T) :
  t ∈ List.filter p l ↔ t ∈ l ∧ p t = true.
Proof. rewrite !list_elem_of_In. apply filter_In. Qed.

Lemma is_zero_false_nonzero x :
  is_zero x = false ↔ ∃ c, c ∈ coefficients x ∧ a_is_zero c = false.
Proof.
  unfold is_zero, coefficients. induction (dense_coefficient_list x) as [|c l IH]; simpl.
  - split; [done | intros (c & Hc & _); by apply elem_of_nil in Hc].
  - destruct (a_is_zero c) eqn:Hc; simpl.
    + rewrite IH. split.
      * intros (c' & Hin & Hz). exists c'. split; [by right | done].
      * intros (c' & [->|Hin]%elem_of_cons & Hz); [congruence | eauto].
    + split; [| done]. intros _. exists c. split; [by left | done].
Qed.

(** ** The loop of [degree] *)

Lemma degree_loop_elem (pairs : list (Z * A)) (acc ds : list Z) :
  degree_loop pairs acc = Ok ds →
  (∀ d, d ∈ acc → d ∈ ds) ∧
  (∀ g c d, (g, c) ∈ pairs → a_is_zero c = false → a_degree c = Ok d → g + d ∈ ds).
Proof.
  revert acc. induction pairs as [|[g0 c0] pairs IH]; intros acc; simpl.
  - intros [= <-]. split; [done |]. intros g c d Hin. by apply elem_of_nil in Hin.
  - destruct (a_is_zero c0) eqn:Hz0.
    + intros Hloop. destruct (IH _ Hloop) as [Hacc Hall]. split; [done |].
      intros g c d [[= -> ->]|Hin]%elem_of_cons Hz Hd; [congruence | eauto].
    + destruct (a_degree c0) as [d0|e] eqn:Hd0; simpl; [| done].
      intros Hloop. destruct (IH _ Hloop) as [Hacc Hall]. split.
      * intros d Hd. apply Hacc, elem_of_app. by left.
      * intros g c d [[= -> ->]|Hin]%elem_of_cons Hz Hd; [| eauto].
        rewrite Hd0 in Hd. injection Hd as <-.
        apply Hacc, elem_of_app. right. by apply list_elem_of_singleton.
Qed.

(** When no call of [degree()] on a nonzero coefficient raises, the loop
    ends normally. *)
Lemma degree_loop_total (pairs : list (Z * A)) (acc : list Z) :
  (∀ g c, (g, c) ∈ pairs → a_is_zero c = false → ∃ d, a_degree c = Ok d) →
  ∃ ds, degree_loop pairs acc = Ok (acc ++ ds).
Proof.
  revert acc. induction pairs as [|[g0 c0] pairs IH]; intros acc Hok; simpl.
  - exists []. by rewrite app_nil_r.
  - assert (Hrest : ∀ g c, (g, c) ∈ pairs → a_is_zero c = false → ∃ d, a_degree c = Ok d).
    { intros g c Hin. apply (Hok g c). by right. }
    destruct (a_is_zero c0) eqn:Hz0; [by apply IH |].
    destruct (Hok g0 c0) as [d0 Hd0]; [by left | done |]. rewrite Hd0. simpl.
    destruct (IH (acc ++ [g0 + d0]) Hrest) as [ds Hds].
    exists ((g0 + d0) :: ds). rewrite Hds. f_equal. by rewrite <- app_assoc.
Qed.

Lemma degree_loop_ok_inv (pairs : list (Z * A)) (acc ds : list Z) :
  degree_loop pairs acc = Ok ds →
  ∀ g c, (g, c) ∈ pairs → a_is_zero c = false → ∃ d, a_degree c = Ok d.
Proof.
  revert acc. induction pairs as [|[g0 c0] pairs IH]; intros acc; simpl.
  - intros _ g c Hin. by apply elem_of_nil in Hin.
  - intros Hloop g c Hin Hz. apply elem_of_cons in Hin as [Heq|Hin].
    + injection Heq as -> ->. rewrite Hz in Hloop.
      destruct (a_degree c0); [eauto | done].
    + destruct (a_is_zero c0); [by eapply IH |].
      destruct (a_degree c0); simpl in Hloop; [by eapply IH | done].
Qed.

(** The degrees the loop collects are the term degrees at the positions
    of the nonzero coefficients, in order. *)
Lemma degree_loop_indices P x (gs : list Z) (cs : list A) (k : nat) (acc ds : list Z) :
  (∀ i, gs !! i = generator_degrees P !! (k + i)%nat) →
  (∀ i, cs !! i = coefficients x !! (k + i)%nat) →
  length gs = length cs →
  degree_loop (zip gs cs) acc = Ok (acc ++ ds) →
  Some <$> ds =
    term_degree P x
      <$> (fst <$> List.filter (λ ic, negb (a_is_zero ic.2)) (enumerate_from k cs)).
Proof.
  revert gs k acc ds. induction cs as [|c cs IH]; intros [|g gs] k acc ds Hg Hc Hlen;
    simpl in *; try done.
  - intros [= Heq]. rewrite <- (app_nil_r acc) in Heq at 1.
    by apply app_inv_head in Heq as <-.
  - assert (Hg' : ∀ i, gs !! i = generator_degrees P !! (S k + i)%nat).
    { intros i. replace (S k + i)%nat with (k + S i)%nat by lia. by rewrite <- Hg. }
    assert (Hc' : ∀ i, cs !! i = coefficients x !! (S k + i)%nat).
    { intros i. replace (S k + i)%nat with (k + S i)%nat by lia. by rewrite <- Hc. }
    assert (Hlen' : length gs = length cs) by lia.
    destruct (a_is_zero c) eqn:Hz; simpl.
    + intros Hloop. by apply (IH gs (S k) acc ds).
    + destruct (a_degree c) as [d|e] eqn:Hd; simpl; [| done].
      intros Hloop.
      destruct (degree_loop_total (zip gs cs) (acc ++ [g + d])) as [ds' Hds'].
      { by apply (degree_loop_ok_inv _ _ _ Hloop). }
      rewrite Hds' in Hloop. injection Hloop as Heq.
      rewrite <- app_assoc in Heq. apply app_inv_head in Heq. subst ds. simpl.
      f_equal.
      * unfold term_degree.
        pose proof (Hg 0%nat) as Hg0. pose proof (Hc 0%nat) as Hc0.
        rewrite Nat.add_0_r in Hg0, Hc0. rewrite <- Hg0, <- Hc0. simpl.
        by rewrite Hd.
      * by apply (IH gs (S k) (acc ++ [g + d]) ds').
Qed.

(** A call of [degree()] that raises [ValueError], with no call before
    it raising anything else, ends the loop with a [ValueError]. *)
Lemma degree_loop_raises (gs : list Z) (cs : list A) (i : nat) g c msg (acc : list Z) :
  gs !! i = Some g → cs !! i = Some c →
  a_is_zero c = false → a_degree c = Raise (ValueError msg) →
  (∀ j c' e, (j < i)%nat → cs !! j = Some c' → a_is_zero c' = false →
     a_degree c' = Raise e → ∃ m, e = ValueError m) →
  ∃ m, degree_loop (zip gs cs) acc = Raise (ValueError m).
Proof.
  revert gs cs acc. induction i as [|i IH]; intros [|g0 gs] [|c0 cs] acc Hg Hc Hz Hd Hbefore;
    simpl in *; try done.
  - injection Hg as ->. injection Hc as ->. rewrite Hz, Hd. simpl. eauto.
  - assert (Hbefore' : ∀ j c' e, (j < i)%nat → cs !! j = Some c' → a_is_zero c' = false →
        a_degree c' = Raise e → ∃ m, e = ValueError m).
    { intros j c' e Hj. apply (Hbefore (S j)). lia. }
    destruct (a_is_zero c0) eqn:Hz0; [by apply IH |].
    destruct (a_degree c0) as [d0|e0] eqn:Hd0; simpl; [by apply IH |].
    destruct (Hbefore 0%nat c0 e0) as [m ->]; [lia | done.. |]. eauto.
Qed.

Lemma degree_loop_raise_kind (pairs : list (Z * A)) (acc : list Z) e :
  (∀ g c e', (g, c) ∈ pairs → a_is_zero c = false → a_degree c = Raise e' →
     ∃ m, e' = ValueError m) →
  degree_loop pairs acc = Raise e → ∃ m, e = ValueError m.
Proof.
  revert acc. induction pairs as [|[g0 c0] pairs IH]; intros acc Hkind; simpl; [done |].
  assert (Hkind' : ∀ g c e', (g, c) ∈ pairs → a_is_zero c = false →
      a_degree c = Raise e' → ∃ m, e' = ValueError m).
  { intros g c e' Hin. apply (Hkind g c e'). by right. }
  destruct (a_is_zero c0) eqn:Hz0; [by apply IH |].
  destruct (a_degree c0) as [d0|e0] eqn:Hd0; simpl; [by apply IH |].
  intros [= <-]. apply (Hkind g0 c0 e0); [by left | done..].
Qed.

Lemma elem_of_zip_lookup {T U : Type} (l : list T) (k : list U) (i : nat) t u :
  l !! i = Some t → k !! i = Some u → (t, u) ∈ zip l k.
Proof.
  intros Hl Hk. apply list_elem_of_lookup. exists i.
  rewrite lookup_zip_with, Hl, Hk. done.
Qed.

Lemma elem_of_zip_r {T U : Type} (l : list T) (k : list U) t u :
  (t, u) ∈ zip l k → u ∈ k.
Proof.
  intros [i Hi]%list_elem_of_lookup. rewrite lookup_zip_with in Hi.
  destruct (l !! i) as [t'|]; simpl in Hi; [| done].
  destruct (k !! i) as [u'|] eqn:Hk; simpl in Hi; [| done].
  injection Hi as <- <-. by eapply list_elem_of_lookup_2.
Qed.

(** What [degree] does on a nonzero element all of whose nonzero
    coefficients have a degree. *)
Lemma degree_of_nonzero P x :
  length (coefficients x) = length (generator_degrees P) →
  is_zero x = false →
  (∀ c, c ∈ coefficients x → a_is_zero c = false → ∃ d, a_degree c = Ok d) →
  ∃ degrees m M,
    degree_loop (zip (generator_degrees P) (coefficients x)) [] = Ok degrees ∧
    degrees ≠ [] ∧
    Some <$> degrees = term_degree P x <$> nonzero_indices x ∧
    py_min degrees = Ok m ∧ py_max degrees = Ok M ∧
    degree P x = if decide (m = M) then Ok m else Raise (ValueError nonhomogeneous_msg).
Proof.
  intros Hlen Hnz Hok.
  destruct (degree_loop_total (zip (generator_degrees P) (coefficients x)) [])
    as [ds Hds].
  { intros g c Hin. apply Hok. by eapply elem_of_zip_r. }
  simpl in Hds.
  assert (Hne : ds ≠ []).
  { apply is_zero_false_nonzero in Hnz as (c & Hin & Hz).
    apply list_elem_of_lookup in Hin as [i Hi].
    destruct (lookup_lt_is_Some_2 (generator_degrees P) i) as [g Hg].
    { rewrite <- Hlen. by eapply lookup_lt_Some. }
    destruct (Hok c) as [d Hd]; [by eapply list_elem_of_lookup_2 | done |].
    destruct (degree_loop_elem _ _ _ Hds) as [_ Hall].
    specialize (Hall g c d (elem_of_zip_lookup _ _ _ _ _ Hg Hi) Hz Hd).
    intros ->. by apply elem_of_nil in Hall. }
  destruct (py_min_max_nonempty ds Hne) as (m & M & Hm & HM).
  exists ds, m, M. split_and!; try done.
  - apply (degree_loop_indices P x (generator_degrees P) (coefficients x) 0%nat [] ds);
      done.
  - unfold degree. rewrite Hnz, Hds, Hm, HM. done.
Qed.

(** ** The zero element *)

(** C2: on the zero element (every coefficient zero) [degree()] raises the
    zero-element error, and [vector_presentation()] returns [None] without
    raising. *)
Theorem zero_element_degree_and_vector P x :
  is_zero x = true →
  degree P x = Raise (ValueError zero_degree_msg) ∧
  vector_presentation P x = Ok None.
Proof.
  intros Hz. unfold degree, vector_presentation. by rewrite Hz.
Qed.

(** ** Degrees *)

(** C5: on a nonzero element all of whose nonzero coefficients have a
    degree, [degree()] collects [d_i = generator_degree[i] +
    coefficients[i].degree()] at exactly the positions [i] of the nonzero
    coefficients, in order, and returns the common value when
    [min(d_i) == max(d_i)] (and raises the nonhomogeneous error when they
    differ). *)
Theorem degree_collects_term_degrees P x :
  length (coefficients x) = length (generator_degrees P) →
  is_zero x = false →
  (∀ c, c ∈ coefficients x → a_is_zero c = false → ∃ d, a_degree c = Ok d) →
  ∃ degrees m M,
    degree_loop (zip (generator_degrees P) (coefficients x)) [] = Ok degrees ∧
    Some <$> degrees = term_degree P x <$> nonzero_indices x ∧
    py_min degrees = Ok m ∧ py_max degrees = Ok M ∧
    (m = M → degree P x = Ok m) ∧
    (m ≠ M → degree P x = Raise (ValueError nonhomogeneous_msg)).
Proof.
  intros Hlen Hnz Hok.
  destruct (degree_of_nonzero P x Hlen Hnz Hok)
    as (ds & m & M & Hds & _ & Hidx & Hm & HM & Hdeg).
  exists ds, m, M. split_and!; try done.
  - intros Heq. by rewrite Hdeg, decide_True.
  - intros Hneq. by rewrite Hdeg, decide_False.
Qed.

(** C10: on a nonzero element on which no call of a coefficient's
    [degree()] raises, the list of collected term degrees is not empty, so
    [min] and [max] return, and [degree()] raises nothing but the
    nonhomogeneous error: never the empty-sequence error of [min] or
    [max]. *)
Theorem degree_never_empty_sequence P x :
  length (coefficients x) = length (generator_degrees P) →
  is_zero x = false →
  (∀ c, c ∈ coefficients x → a_is_zero c = false → ∃ d, a_degree c = Ok d) →
  ∃ degrees m M,
    degree_loop (zip (generator_degrees P) (coefficients x)) [] = Ok degrees ∧
    degrees ≠ [] ∧
    py_min degrees = Ok m ∧ py_max degrees = Ok M ∧
    ∀ e, degree P x = Raise e →
      e = ValueError nonhomogeneous_msg ∧
      e ≠ ValueError empty_min_msg ∧ e ≠ ValueError empty_max_msg.
Proof.
  intros Hlen Hnz Hok.
  destruct (degree_of_nonzero P x Hlen Hnz Hok)
    as (ds & m & M & Hds & Hne & _ & Hm & HM & Hdeg).
  exists ds, m, M. split_and!; try done.
  intros e. rewrite Hdeg. case_decide; [done |]. intros [= <-]. done.
Qed.

(** C4: when the call of [degree()] on a nonzero coefficient raises
    [ValueError] (the coefficient is not homogeneous in the algebra), and
    no call made before it raises anything else, [degree()] raises the
    nonhomogeneous-element error, whatever the message of the inner
    error. *)
Theorem degree_resignals_coefficient_failure P x i g c msg :
  generator_degrees P !! i = Some g →
  coefficients x !! i = Some c →
  a_is_zero c = false →
  a_degree c = Raise (ValueError msg) →
  (∀ j c' e, (j < i)%nat → coefficients x !! j = Some c' → a_is_zero c' = false →
     a_degree c' = Raise e → ∃ m, e = ValueError m) →
  degree P x = Raise (ValueError nonhomogeneous_msg).
Proof.
  intros Hg Hc Hz Hd Hbefore.
  assert (Hnz : is_zero x = false).
  { apply is_zero_false_nonzero. exists c. split; [| done].
    by eapply list_elem_of_lookup_2. }
  destruct (degree_loop_raises _ _ i g c msg [] Hg Hc Hz Hd Hbefore) as [m Hloop].
  unfold degree. by rewrite Hnz, Hloop.
Qed.

(** C3: when two nonzero coefficients give two distinct term degrees
    [generator_degree[i] + coefficients[i].degree()], both [degree()] and
    [vector_presentation()] raise the nonhomogeneous-element error; the
    calls of [degree()] on the coefficients raise nothing but
    [ValueError]. *)
Theorem mixed_degrees_fail P x i j gi gj ci cj di dj :
  generator_degrees P !! i = Some gi → coefficients x !! i = Some ci →
  a_is_zero ci = false → a_degree ci = Ok di →
  generator_degrees P !! j = Some gj → coefficients x !! j = Some cj →
  a_is_zero cj = false → a_degree cj = Ok dj →
  gi + di ≠ gj + dj →
  (∀ c e, c ∈ coefficients x → a_is_zero c = false → a_degree c = Raise e →
     ∃ m, e = ValueError m) →
  degree P x = Raise (ValueError nonhomogeneous_msg) ∧
  vector_presentation P x = Raise (ValueError nonhomogeneous_msg).
Proof.
  intros Hgi Hci Hzi Hdi Hgj Hcj Hzj Hdj Hneq Hkind.
  assert (Hnz : is_zero x = false).
  { apply is_zero_false_nonzero. exists ci. split; [| done].
    by eapply list_elem_of_lookup_2. }
  assert (Hdeg : degree P x = Raise (ValueError nonhomogeneous_msg)).
  { unfold degree. rewrite Hnz.
    destruct (degree_loop _ _) as [ds|e] eqn:Hloop.
    - destruct (degree_loop_elem _ _ _ Hloop) as [_ Hall].
      pose proof (Hall gi ci di (elem_of_zip_lookup _ _ _ _ _ Hgi Hci) Hzi Hdi) as Hini.
      pose proof (Hall gj cj dj (elem_of_zip_lookup _ _ _ _ _ Hgj Hcj) Hzj Hdj) as Hinj.
      destruct (py_min_max_nonempty ds) as (m & M & Hm & HM).
      { intros ->. by apply elem_of_nil in Hini. }
      rewrite Hm, HM. simpl. case_decide as Heq; [| done]. subst M. exfalso.
      pose proof (py_min_le _ _ _ Hm Hini). pose proof (py_min_le _ _ _ Hm Hinj).
      pose proof (py_max_ge _ _ _ HM Hini). pose proof (py_max_ge _ _ _ HM Hinj).
      lia.
    - destruct (degree_loop_raise_kind _ _ _ (λ g c e' Hin, Hkind c e' (elem_of_zip_r _ _ _ _ Hin))
                  Hloop) as [m ->].
      done. }
  split; [done |]. unfold vector_presentation. by rewrite Hnz, Hdeg.
Qed.

(** ** The left action *)

(** C6: the left action of [a] on [x] returns the element whose
    coefficient at every position [i] is the product [a · x.coefficients()[i]],
    with [a] on the left; the result has as many coefficients as [x], and
    [x] is a value that the action leaves as it is. *)
Theorem lmul_coefficients P x a :
  coefficients (_lmul_ P x a) = (a_mul a <$> coefficients x) ∧
  length (coefficients (_lmul_ P x a)) = length (coefficients x) ∧
  ∀ i, coefficients (_lmul_ P x a) !! i = a_mul a <$> coefficients x !! i.
Proof.
  unfold _lmul_, element_constructor, coefficients; simpl.
  split_and!; [done | by rewrite length_fmap | intros i; by rewrite list_lookup_fmap].
Qed.

Lemma lmul_add_scalar P x a b :
  (∀ a b c, a_mul (a_add a b) c = a_add (a_mul a c) (a_mul b c)) →
  _lmul_ P x (a_add a b) = add (_lmul_ P x a) (_lmul_ P x b).
Proof.
  intros Hr. destruct x as [cs].
  unfold _lmul_, element_constructor, add, coefficients; simpl. f_equal.
  induction cs as [|c cs IH]; csimpl; [done | by rewrite Hr, IH].
Qed.

Lemma lmul_add_element P x y a :
  (∀ a b c, a_mul a (a_add b c) = a_add (a_mul a b) (a_mul a c)) →
  _lmul_ P (add x y) a = add (_lmul_ P x a) (_lmul_ P y a).
Proof.
  intros Hl. destruct x as [cs], y as [ds].
  unfold _lmul_, element_constructor, add, coefficients; simpl. f_equal.
  revert ds. induction cs as [|c cs IH]; intros [|d ds]; csimpl; try done.
  by rewrite Hl, IH.
Qed.

(** C7: the action is additive in both arguments: [(a+b) ⋆ x = a⋆x + b⋆x]
    and [a ⋆ (x+y) = a⋆x + a⋆y], given that the multiplication of the
    algebra distributes over its addition. *)
Theorem lmul_bilinear P x y a b :
  (∀ a b c, a_mul (a_add a b) c = a_add (a_mul a c) (a_mul b c)) →
  (∀ a b c, a_mul a (a_add b c) = a_add (a_mul a b) (a_mul a c)) →
  _lmul_ P x (a_add a b) = add (_lmul_ P x a) (_lmul_ P x b) ∧
  _lmul_ P (add x y) a = add (_lmul_ P x a) (_lmul_ P y a).
Proof.
  intros Hr Hl. split; [by apply lmul_add_scalar | by apply lmul_add_element].
Qed.

(** ** The dictionary of basis elements *)

Lemma dict_foldl_lookup `{Countable Key} {V : Type} (keys : list Key) (vals : list V)
    (acc : gmap Key V) (key : Key) (val : V) :
  foldl (λ d kv, <[kv.1 := kv.2]> d) acc (zip keys vals) !! key = Some val →
  (∃ k, keys !! k = Some key ∧ vals !! k = Some val) ∨ acc !! key = Some val.
Proof.
  revert vals acc. induction keys as [|k0 keys IH]; intros [|v0 vals] acc; simpl; eauto.
  intros [(k & Hk & Hv)|Hacc]%IH.
  - left. by exists (S k).
  - destruct (decide (k0 = key)) as [->|Hne].
    + rewrite lookup_insert_eq in Hacc. injection Hacc as ->. left. by exists 0%nat.
    + rewrite lookup_insert_ne in Hacc by done. by right.
Qed.

Lemma dict_foldl_is_Some `{Countable Key} {V : Type} (keys : list Key) (vals : list V)
    (acc : gmap Key V) (key : Key) :
  (length keys ≤ length vals)%nat →
  key ∈ keys ∨ is_Some (acc !! key) →
  is_Some (foldl (λ d kv, <[kv.1 := kv.2]> d) acc (zip keys vals) !! key).
Proof.
  revert vals acc. induction keys as [|k0 keys IH]; intros [|v0 vals] acc Hlen Hin;
    simpl in *; try lia.
  - destruct Hin as [Hin|Hin]; [by apply elem_of_nil in Hin | done].
  - destruct Hin as [Hin|Hin]; [by apply elem_of_nil in Hin | done].
  - apply IH; [lia |]. destruct (decide (k0 = key)) as [->|Hne].
    + right. rewrite lookup_insert_eq. eauto.
    + destruct Hin as [[->|Hin]%elem_of_cons|Hin]; [done | by left |].
      right. by rewrite lookup_insert_ne.
Qed.

Lemma dict_zip_lookup `{Countable Key} {V : Type} (keys : list Key) (vals : list V)
    (key : Key) (val : V) :
  dict (zip keys vals) !! key = Some val →
  ∃ k, keys !! k = Some key ∧ vals !! k = Some val.
Proof.
  intros [Hk|Hempty]%dict_foldl_lookup; [done |]. by rewrite lookup_empty in Hempty.
Qed.

Lemma dict_zip_missing `{Countable Key} {V : Type} (keys : list Key) (vals : list V)
    (key : Key) :
  key ∉ keys → dict_getitem (dict (zip keys vals)) key = Raise KeyError.
Proof.
  intros Hnot. unfold dict_getitem.
  destruct (dict (zip keys vals) !! key) as [val|] eqn:Hd; [| done].
  apply dict_zip_lookup in Hd as (k & Hk & _). exfalso. apply Hnot.
  by eapply list_elem_of_lookup_2.
Qed.

(** ** The loops of [vector_presentation] *)

Lemma dict_getitem_raise `{Countable Key} {V : Type} (d : gmap Key V) (key : Key) e :
  dict_getitem d key = Raise e → e = KeyError.
Proof. unfold dict_getitem. destruct (d !! key); [done | by intros [= <-]]. Qed.

Lemma terms_loop_raise P base_dict g terms v e :
  terms_loop P base_dict g terms v = Raise e → e = KeyError.
Proof.
  revert v. induction terms as [|[s m] terms IH]; intros v; simpl; [done |].
  destruct (dict_getitem base_dict (_lmul_ P g m)) as [u|e'] eqn:Hget; simpl.
  - apply IH.
  - intros [= <-]. by eapply dict_getitem_raise.
Qed.

Lemma terms_loop_missing P base_dict g terms v s m :
  (s, m) ∈ terms →
  dict_getitem base_dict (_lmul_ P g m) = Raise KeyError →
  terms_loop P base_dict g terms v = Raise KeyError.
Proof.
  revert v. induction terms as [|[s0 m0] terms IH]; intros v Hin Hmiss; simpl.
  - by apply elem_of_nil in Hin.
  - destruct (dict_getitem base_dict (_lmul_ P g m0)) as [u|e'] eqn:Hget; simpl.
    + apply elem_of_cons in Hin as [Heq|Hin]; [| by apply IH].
      injection Heq as -> ->. congruence.
    + f_equal. by eapply dict_getitem_raise.
Qed.

Lemma summands_loop_missing P base_dict sparse v i c s m :
  (i, c) ∈ sparse →
  (s, m) ∈ zip (a_coefficients c) (a_monomials c) →
  dict_getitem base_dict (_lmul_ P (generator P i) m) = Raise KeyError →
  summands_loop P base_dict sparse v = Raise KeyError.
Proof.
  revert v. induction sparse as [|[i0 c0] sparse IH]; intros v Hin Hterm Hmiss; simpl.
  - by apply elem_of_nil in Hin.
  - destruct (terms_loop P base_dict (generator P i0) _ v) as [v'|e] eqn:Hloop; simpl.
    + apply elem_of_cons in Hin as [Heq|Hin]; [| by apply IH].
      injection Heq as -> ->.
      by rewrite (terms_loop_missing _ _ _ _ _ _ _ Hterm Hmiss) in Hloop.
    + f_equal. by eapply terms_loop_raise.
Qed.

Lemma elem_of_sparse_coeffs x i c :
  coefficients x !! i = Some c → a_is_zero c = false →
  (i, c) ∈ List.filter (λ ic, negb (a_is_zero ic.2)) (enumerate (coefficients x)).
Proof.
  intros Hc Hz. apply elem_of_filter_bool. split; [| by simpl; rewrite Hz].
  apply elem_of_enumerate_from. split; [lia |]. by rewrite Nat.sub_0_r.
Qed.

(** C9: when a monomial of a nonzero coefficient of a homogeneous element
    has a product with its generator that is not among the basis elements
    the parent gives for the degree of the element,
    [vector_presentation()] raises the [KeyError] of the dictionary
    lookup. *)
Theorem vector_presentation_key_error P x n i c s m :
  degree P x = Ok n →
  coefficients x !! i = Some c →
  a_is_zero c = false →
  (s, m) ∈ zip (a_coefficients c) (a_monomials c) →
  _lmul_ P (generator P i) m ∉ basis_elements P n →
  vector_presentation P x = Raise KeyError.
Proof.
  intros Hdeg Hc Hz Hterm Hnot.
  assert (Hnz : is_zero x = false).
  { apply is_zero_false_nonzero. exists c. split; [| done].
    by eapply list_elem_of_lookup_2. }
  unfold vector_presentation. rewrite Hnz, Hdeg. simpl.
  rewrite (summands_loop_missing _ _ _ _ i c s m); [done | | done |].
  - by apply elem_of_sparse_coeffs.
  - by apply dict_zip_missing.
Qed.

End FreeElementProperties.

(** * The round trip through the coordinate vector *)

Section RoundTrip.
Context {K A : Type} `{GradedAlgebra K A} `{!AlgebraLaws}.

Implicit Types (P : FreeGradedModule A) (x y z b g : FreeGradedModuleElement A).
Implicit Types (a c : A) (v w : list K).

(** ** The module laws that follow from the laws of the algebra *)

Lemma add_comm x y : add x y = add y x.
Proof.
  destruct x as [cs], y as [ds]. unfold add; simpl. f_equal.
  revert ds. induction cs as [|c cs IH]; intros [|d ds]; simpl; try done.
  by rewrite a_add_comm, IH.
Qed.

Lemma add_assoc x y z : add x (add y z) = add (add x y) z.
Proof.
  destruct x as [cs], y as [ds], z as [es]. unfold add; simpl. f_equal.
  revert ds es. induction cs as [|c cs IH]; intros [|d ds] [|e es]; simpl; try done.
  by rewrite a_add_assoc, IH.
Qed.

Lemma add_swap x y z t : add (add x y) (add z t) = add (add x z) (add y t).
Proof.
  rewrite <- (add_assoc x y), (add_assoc y z t), (add_comm y z).
  by rewrite <- (add_assoc z y t), (add_assoc x z).
Qed.

Lemma zero_in_parent P : in_parent P (zero P).
Proof. unfold in_parent, zero, coefficients; simpl. apply length_replicate. Qed.

Lemma add_in_parent P x y : in_parent P x → in_parent P y → in_parent P (add x y).
Proof.
  unfold in_parent, add, coefficients; simpl. intros Hx Hy.
  rewrite length_zip_with. lia.
Qed.

Lemma lmul_in_parent P x a : in_parent P x → in_parent P (_lmul_ P x a).
Proof.
  unfold in_parent, _lmul_, element_constructor, coefficients; simpl.
  by rewrite length_fmap.
Qed.

Lemma generator_in_parent P i : in_parent P (generator P i).
Proof.
  unfold in_parent, generator, unit_coefficients, coefficients; simpl.
  by rewrite length_insert, length_replicate.
Qed.

Lemma add_zero_r P x : in_parent P x → add x (zero P) = x.
Proof.
  destruct x as [cs]. unfold in_parent, add, zero, coefficients; simpl. intros Hlen.
  f_equal. rewrite zip_with_replicate_r_eq by done.
  clear Hlen. induction cs as [|c cs IH]; csimpl; [done |].
  by rewrite a_add_zero_r, IH.
Qed.

Lemma add_zero_l P x : in_parent P x → add (zero P) x = x.
Proof. intros Hx. rewrite add_comm. by apply add_zero_r. Qed.

Lemma lmul_zero P x : in_parent P x → _lmul_ P x a_zero = zero P.
Proof.
  destruct x as [cs]. unfold in_parent, _lmul_, element_constructor, zero, coefficients;
    simpl. intros <-. f_equal.
  induction cs as [|c cs IH]; csimpl; [done |]. by rewrite a_mul_zero_l, IH.
Qed.

Lemma lmul_lmul P x a c : _lmul_ P (_lmul_ P x c) a = _lmul_ P x (a_mul a c).
Proof.
  destruct x as [cs]. unfold _lmul_, element_constructor, coefficients; simpl. f_equal.
  induction cs as [|c0 cs IH]; csimpl; [done |]. by rewrite a_mul_assoc, IH.
Qed.

(** ** The basis expansion is linear *)

Lemma expansion_in_parent P v basis :
  Forall (in_parent P) basis → in_parent P (expansion P v basis).
Proof.
  intros Hbasis. revert v. induction Hbasis as [|b basis Hb Hbasis IH]; intros [|s v]; simpl;
    try apply zero_in_parent.
  apply add_in_parent; [by apply lmul_in_parent | apply IH].
Qed.

Lemma foldl_expansion P v basis acc :
  Forall (in_parent P) basis → in_parent P acc →
  foldl (λ acc sb, add acc (_lmul_ P sb.2 (a_of_scalar sb.1))) acc (zip v basis)
  = add acc (expansion P v basis).
Proof.
  intros Hbasis. revert v acc.
  induction Hbasis as [|b basis Hb Hbasis IH]; intros [|s v] acc Hacc; simpl;
    try by rewrite add_zero_r.
  rewrite IH by (apply add_in_parent; [done | by apply lmul_in_parent]).
  by rewrite add_assoc.
Qed.

Lemma basis_expansion_expansion P v n :
  (∀ b, b ∈ basis_elements P n → in_parent P b) →
  basis_expansion P v n = expansion P v (basis_elements P n).
Proof.
  intros Hbasis%Forall_forall. unfold basis_expansion.
  rewrite foldl_expansion by (done || apply zero_in_parent).
  apply add_zero_l. by apply expansion_in_parent.
Qed.

Lemma expansion_add P v w basis :
  length v = length w →
  expansion P (vec_add v w) basis = add (expansion P v basis) (expansion P w basis).
Proof.
  revert w basis. induction v as [|s v IH]; intros [|t w] basis Hlen; simpl in *; try done.
  - by rewrite add_zero_r by apply zero_in_parent.
  - destruct basis as [|b basis]; [by rewrite add_zero_r by apply zero_in_parent |].
    rewrite IH by lia. rewrite a_of_scalar_add.
    rewrite lmul_add_scalar by apply a_mul_add_distr_r. apply add_swap.
Qed.

Lemma expansion_zeros P (d : nat) basis :
  Forall (in_parent P) basis → expansion P (replicate d k_zero) basis = zero P.
Proof.
  intros Hbasis. revert d. induction Hbasis as [|b basis Hb Hbasis IH]; intros [|d];
    simpl; try done.
  rewrite a_of_scalar_zero, lmul_zero, IH by done. apply add_zero_r, zero_in_parent.
Qed.

Lemma vec_scale_zeros s (d : nat) : vec_scale s (replicate d k_zero) = replicate d k_zero.
Proof. unfold vec_scale. by rewrite fmap_replicate, k_mul_zero_r. Qed.

Lemma expansion_unit P s basis (k : nat) b :
  Forall (in_parent P) basis → basis !! k = Some b →
  expansion P (vec_scale s (unit_vector (length basis) k)) basis
  = _lmul_ P b (a_of_scalar s).
Proof.
  intros Hbasis. revert k.
  induction Hbasis as [|b0 basis Hb0 Hbasis IH]; intros [|k] Hk; simpl in *; try done.
  - injection Hk as ->. rewrite k_mul_one_r.
    rewrite vec_scale_zeros, expansion_zeros by done.
    apply add_zero_r. by apply lmul_in_parent.
  - rewrite k_mul_zero_r, a_of_scalar_zero, lmul_zero by done.
    specialize (IH k Hk). unfold unit_vector in IH. rewrite IH.
    apply add_zero_l. apply lmul_in_parent.
    eapply Forall_lookup_1; [apply Hbasis | apply Hk].
Qed.

(** ** The loops follow the expansion *)

Lemma vs_basis_lookup (V : VectorSpace) (k : nat) (e : list K) :
  vs_basis V !! k = Some e → e = unit_vector (dimension V) k.
Proof.
  unfold vs_basis. rewrite list_lookup_fmap. intros Hk.
  apply fmap_Some in Hk as (k' & Hseq & ->).
  apply lookup_seq in Hseq as [-> _]. done.
Qed.

Lemma length_vs_basis (V : VectorSpace) : length (vs_basis V) = dimension V.
Proof. unfold vs_basis. by rewrite length_fmap, length_seq. Qed.

Lemma length_scaled_unit s (d k : nat) : length (vec_scale s (unit_vector d k)) = d.
Proof.
  unfold vec_scale, unit_vector. by rewrite length_fmap, length_insert, length_replicate.
Qed.

Lemma terms_loop_expansion P basis (V : VectorSpace) g terms v :
  dimension V = length basis →
  Forall (in_parent P) basis →
  length v = length basis →
  (∀ s m, (s, m) ∈ terms → _lmul_ P g m ∈ basis) →
  ∃ v', terms_loop P (dict (zip basis (vs_basis V))) g terms v = Ok v' ∧
        length v' = length basis ∧
        expansion P v' basis = add (expansion P v basis) (terms_sum P g terms).
Proof.
  intros Hdim Hbasis. revert v.
  induction terms as [|[s m] terms IH]; intros v Hlen Hkeys; simpl.
  - exists v. split_and!; [done.. |].
    by rewrite add_zero_r by by apply expansion_in_parent.
  - destruct (dict_foldl_is_Some basis (vs_basis V) ∅ (_lmul_ P g m)) as [e He].
    { rewrite length_vs_basis. lia. }
    { left. apply (Hkeys s m). by left. }
    fold (dict (zip basis (vs_basis V))) in He.
    unfold dict_getitem. rewrite He. simpl.
    apply dict_zip_lookup in He as (k & Hk & He).
    apply vs_basis_lookup in He as ->. rewrite Hdim.
    destruct (IH (vec_add v (vec_scale s (unit_vector (length basis) k))))
      as (v' & Hloop & Hlen' & Hexp).
    { unfold vec_add. rewrite length_zip_with, length_scaled_unit. lia. }
    { intros s' m' Hin. apply (Hkeys s' m'). by right. }
    exists v'. split_and!; [done.. |].
    rewrite Hexp, expansion_add by by rewrite length_scaled_unit.
    rewrite (expansion_unit P s basis k _ Hbasis Hk). by rewrite add_assoc.
Qed.

Lemma summands_loop_expansion P basis (V : VectorSpace) sparse v :
  dimension V = length basis →
  Forall (in_parent P) basis →
  length v = length basis →
  (∀ i c s m, (i, c) ∈ sparse → (s, m) ∈ zip (a_coefficients c) (a_monomials c) →
     _lmul_ P (generator P i) m ∈ basis) →
  ∃ v', summands_loop P (dict (zip basis (vs_basis V))) sparse v = Ok v' ∧
        length v' = length basis ∧
        expansion P v' basis = add (expansion P v basis) (summands_sum P sparse).
Proof.
  intros Hdim Hbasis. revert v.
  induction sparse as [|[i c] sparse IH]; intros v Hlen Hkeys; simpl.
  - exists v. split_and!; [done.. |].
    by rewrite add_zero_r by by apply expansion_in_parent.
  - destruct (terms_loop_expansion P basis V (generator P i)
                (zip (a_coefficients c) (a_monomials c)) v Hdim Hbasis Hlen)
      as (v1 & Hloop1 & Hlen1 & Hexp1).
    { intros s m Hin. apply (Hkeys i c s m); [by left | done]. }
    rewrite Hloop1. simpl.
    destruct (IH v1 Hlen1) as (v' & Hloop & Hlen' & Hexp).
    { intros i' c' s m Hin. apply (Hkeys i' c' s m). by right. }
    exists v'. split_and!; [done.. |].
    by rewrite Hexp, Hexp1, add_assoc.
Qed.

(** ** The sums give back the coefficients *)

Lemma terms_sum_lmul P g terms :
  in_parent P g → terms_sum P g terms = _lmul_ P g (a_sum_terms terms).
Proof.
  intros Hg. induction terms as [|[s m] terms IH]; simpl.
  - by rewrite lmul_zero.
  - rewrite IH, lmul_lmul. by rewrite lmul_add_scalar by apply a_mul_add_distr_r.
Qed.

Lemma lmul_generator P (k : nat) c :
  (k < length (generator_degrees P))%nat →
  _lmul_ P (generator P k) c
  = Element (replicate k a_zero ++ c :: replicate (length (generator_degrees P) - S k) a_zero).
Proof.
  intros Hk. unfold _lmul_, element_constructor, generator, unit_coefficients, coefficients.
  simpl. f_equal. rewrite insert_replicate_lt by done.
  rewrite fmap_app, fmap_cons, !fmap_replicate.
  by rewrite a_mul_zero_r, a_mul_one_r.
Qed.

Lemma zip_with_add_zeros_l (l : list A) :
  zip_with a_add (replicate (length l) a_zero) l = l.
Proof.
  induction l as [|c l IH]; simpl; [done |].
  by rewrite a_add_comm, a_add_zero_r, IH.
Qed.

Lemma summands_sum_enumerate P (cs : list A) (k : nat) :
  (k + length cs = length (generator_degrees P))%nat →
  summands_sum P (List.filter (λ ic, negb (a_is_zero ic.2)) (enumerate_from k cs))
  = Element (replicate k a_zero ++ cs).
Proof.
  revert k. induction cs as [|c cs IH]; intros k Hlen; simpl in *.
  - unfold zero. rewrite app_nil_r. f_equal. f_equal. lia.
  - specialize (IH (S k)). destruct (a_is_zero c) eqn:Hz; simpl.
    + rewrite (a_is_zero_true c Hz), cons_middle, app_assoc, <- replicate_S_end.
      apply IH. lia.
    + rewrite IH by lia.
      rewrite terms_sum_lmul, a_decomposition by apply generator_in_parent.
      rewrite lmul_generator by lia. unfold add; simpl. f_equal.
      replace (length (generator_degrees P) - S k)%nat with (length cs) by lia.
      rewrite app_comm_cons, replicate_cons_app, <- app_assoc.
      rewrite zip_with_app by done. simpl.
      by rewrite zip_with_replicate, !a_add_zero_r, zip_with_add_zeros_l.
Qed.

(** X9: the round trip, when the two lists that [vector_presentation]
    zips are in step.  For a homogeneous element [x] of degree [n] of a
    parent that keeps its contract in degree [n] (one coordinate per basis
    element, basis elements that are elements of the parent, and among
    them every product of a monomial of [x] with its generator), over an
    algebra that keeps the ring laws and in which every element is the sum
    of [scalar * monomial] over the pairs of
    [zip(coefficients(), monomials())], [vector_presentation()] returns a
    vector [v], and the sum of [scalar * basis_element] over
    [zip(v, basis_elements(n))] is [x]. *)
Theorem vector_presentation_round_trip P x n :
  in_parent P x →
  degree P x = Ok n →
  basis_contract P n →
  basis_covers P x n →
  ∃ v, vector_presentation P x = Ok (Some v) ∧ basis_expansion P v n = x.
Proof.
  intros Hx Hdeg [Hdim Hbasis] Hcovers.
  assert (Hnz : is_zero x = false).
  { unfold degree in Hdeg. by destruct (is_zero x). }
  pose proof (proj2 (Forall_forall _ _) Hbasis) as Hall.
  destruct (summands_loop_expansion P (basis_elements P n) (parent_vector_presentation P n)
              (List.filter (λ ic, negb (a_is_zero ic.2)) (enumerate (coefficients x)))
              (vs_zero (parent_vector_presentation P n)) Hdim Hall)
    as (v & Hloop & Hlen & Hexp).
  { unfold vs_zero. by rewrite length_replicate. }
  { intros i c s m [Hin Hz]%elem_of_filter_bool Hterm.
    apply elem_of_enumerate_from in Hin as [_ Hin]. rewrite Nat.sub_0_r in Hin.
    apply (Hcovers i c s m Hin); [| done].
    simpl in Hz. by destruct (a_is_zero c). }
  exists v. split.
  - unfold vector_presentation. rewrite Hnz, Hdeg. simpl. by rewrite Hloop.
  - rewrite basis_expansion_expansion, Hexp by done.
    unfold vs_zero. rewrite expansion_zeros by done.
    unfold enumerate.
    rewrite (summands_sum_enumerate P (coefficients x) 0) by done.
    simpl. destruct x as [cs]. by apply add_zero_l.
Qed.

End RoundTrip.

(** * The scenario of two generators of degrees 0 and 1 *)

Section Scenario.
Context {K A : Type} `{GradedAlgebra K A} `{!AlgebraLaws}.


End Scenario.

(** * The small algebra keeps the laws; the methods on its elements *)

Module SmallAlgebraFacts.
Import SmallAlgebra.

Lemma small_zero_iff (n : Z) : (n =? 0) = true ↔ n = 0.
Proof. apply Z.eqb_eq. Qed.

Lemma small_decomposition (x : small) :
  a_sum_terms (zip (a_coefficients x) (a_monomials x)) = x.
Proof.
  simpl. rewrite zip_fst_snd. destruct x as [u a b c]. unfold small_terms; simpl.
  destruct (Z.eqb_spec u 0), (Z.eqb_spec a 0), (Z.eqb_spec b 0), (Z.eqb_spec c 0);
    subst; simpl; unfold small_add, small_mul, small_of_scalar, small_zero; simpl;
    f_equal; lia.
Qed.

#[export] Instance small_laws : AlgebraLaws (H0 := small_algebra).
Proof.
  split; simpl.
  - intros [] []. unfold small_add; simpl. f_equal; lia.
  - intros [] [] []. unfold small_add; simpl. f_equal; lia.
  - intros []. unfold small_add; simpl. f_equal; lia.
  - intros []. unfold small_mul, small_zero; simpl. f_equal; lia.
  - intros []. unfold small_mul, small_zero; simpl. f_equal; lia.
  - intros []. unfold small_mul; simpl. f_equal; lia.
  - intros [] [] []. unfold small_mul; simpl. f_equal; lia.
  - intros [] [] []. unfold small_mul, small_add; simpl. f_equal; lia.
  - intros [] [] []. unfold small_mul, small_add; simpl. f_equal; lia.
  - done.
  - intros s t. unfold small_add, small_of_scalar; simpl. f_equal.
  - intros s. lia.
  - intros s. lia.
  - intros [u a b c]. unfold small_is_zero; simpl.
    intros [[[Hu Ha]%andb_prop Hb]%andb_prop Hc]%andb_prop.
    apply Z.eqb_eq in Hu, Ha, Hb, Hc. by subst.
  - apply small_decomposition.
Qed.

Lemma small_degree_raises (c : small) (e : exn) :
  a_degree c = Raise e → ∃ m, e = ValueError m.
Proof.
  simpl. unfold small_degree.
  destruct (s_unit c =? 0), ((s_a c =? 0) && (s_b c =? 0)), (s_c c =? 0);
    intros [= <-] || done; eauto.
Qed.

(** The product of a monomial with a generator, as the basis lists it. *)
Lemma free_basis_products (degs : list Z) (i : nat) (m : small) :
  Element (a_mul m <$> unit_coefficients (length degs) i)
  = _lmul_ (free_module degs) (generator (free_module degs) i) m.
Proof. done. Qed.

(** The scenario of the specification, run. *)
Lemma scenario_run :
  generator_degrees M01 = [0; 1] ∧
  a_degree q = Ok 6 ∧
  zip (a_coefficients q) (a_monomials q) = [(1, mon_a); (1, mon_b)] ∧
  coefficients x_q1 = [q; small_one] ∧
  degree M01 x_q1 = Raise (ValueError nonhomogeneous_msg) ∧
  vector_presentation M01 x_q1 = Raise (ValueError nonhomogeneous_msg).
Proof. by vm_compute. Qed.

(** A homogeneous element of degree 7 and its coordinates. *)
Lemma homogeneous_run :
  coefficients x_cq = [mon_c; q] ∧
  degree M01 x_cq = Ok 7 ∧
  basis_elements M01 7 = [Element [mon_c; small_zero];
                          Element [small_zero; mon_a];
                          Element [small_zero; mon_b]] ∧
  vector_presentation M01 x_cq = Ok (Some [1; 1; 1]) ∧
  vector_presentation M01 (Element [Small 0 0 0 5; Small 0 2 (-3) 0])
    = Ok (Some [5; 2; -3]).
Proof. by vm_compute. Qed.


(** ** The theorems at elements of the small algebra *)

Lemma zero_element_degree_and_vector_witness :
  degree M01 (zero M01) = Raise (ValueError zero_degree_msg) ∧
  vector_presentation M01 (zero M01) = Ok None.
Proof. apply (zero_element_degree_and_vector M01 (zero M01)). reflexivity. Defined.

Lemma lmul_bilinear_witness :
  _lmul_ M01 x_cq (a_add mon_a small_one)
    = add (_lmul_ M01 x_cq mon_a) (_lmul_ M01 x_cq small_one) ∧
  _lmul_ M01 (add x_cq x_q1) mon_a = add (_lmul_ M01 x_cq mon_a) (_lmul_ M01 x_q1 mon_a).
Proof.
  apply (lmul_bilinear M01 x_cq x_q1 mon_a small_one).
  - apply a_mul_add_distr_r.
  - apply a_mul_add_distr_l.
Defined.

Lemma degree_collects_term_degrees_witness :
  ∃ degrees m M,
    degree_loop (zip (generator_degrees M01) (coefficients x_cq)) [] = Ok degrees ∧
    Some <$> degrees = term_degree M01 x_cq <$> nonzero_indices x_cq ∧
    py_min degrees = Ok m ∧ py_max degrees = Ok M ∧
    (m = M → degree M01 x_cq = Ok m) ∧
    (m ≠ M → degree M01 x_cq = Raise (ValueError nonhomogeneous_msg)).
Proof.
  apply (degree_collects_term_degrees M01 x_cq).
  - reflexivity.
  - reflexivity.
  - intros c Hc _. destruct (a_degree c) as [d|e] eqn:Hd; [by exists d |].
    exfalso. vm_compute in Hc.
    apply elem_of_cons in Hc as [->|Hc]; [vm_compute in Hd; discriminate |].
    apply elem_of_cons in Hc as [->|Hc]; [vm_compute in Hd; discriminate |].
    by apply elem_of_nil in Hc.
Defined.

Lemma degree_never_empty_sequence_witness :
  ∃ degrees m M,
    degree_loop (zip (generator_degrees M01) (coefficients x_q1)) [] = Ok degrees ∧
    degrees ≠ [] ∧
    py_min degrees = Ok m ∧ py_max degrees = Ok M ∧
    ∀ e, degree M01 x_q1 = Raise e →
      e = ValueError nonhomogeneous_msg ∧
      e ≠ ValueError empty_min_msg ∧ e ≠ ValueError empty_max_msg.
Proof.
  apply (degree_never_empty_sequence M01 x_q1).
  - reflexivity.
  - reflexivity.
  - intros c Hc _. destruct (a_degree c) as [d|e] eqn:Hd; [by exists d |].
    exfalso. vm_compute in Hc.
    apply elem_of_cons in Hc as [->|Hc]; [vm_compute in Hd; discriminate |].
    apply elem_of_cons in Hc as [->|Hc]; [vm_compute in Hd; discriminate |].
    by apply elem_of_nil in Hc.
Defined.

Lemma degree_resignals_coefficient_failure_witness :
  a_degree (small_add small_one mon_a) = Raise (ValueError "element is not homogeneous") ∧
  degree M01 x_inhomogeneous = Raise (ValueError nonhomogeneous_msg).
Proof.
  split; [reflexivity |].
  apply (degree_resignals_coefficient_failure M01 x_inhomogeneous 1 1
           (small_add small_one mon_a) "element is not homogeneous").
  - reflexivity.
  - reflexivity.
  - reflexivity.
  - reflexivity.
  - intros j c' e _ _ _ He. by apply (small_degree_raises c').
Defined.

Lemma mixed_degrees_fail_witness :
  degree M01 x_q1 = Raise (ValueError nonhomogeneous_msg) ∧
  vector_presentation M01 x_q1 = Raise (ValueError nonhomogeneous_msg).
Proof.
  apply (mixed_degrees_fail M01 x_q1 0 1 0 1 q small_one 6 0).
  - reflexivity.
  - reflexivity.
  - reflexivity.
  - reflexivity.
  - reflexivity.
  - reflexivity.
  - reflexivity.
  - reflexivity.
  - lia.
  - intros c e _ _ He. by apply (small_degree_raises c).
Defined.

Lemma vector_presentation_key_error_witness :
  degree M01_short x_cq = Ok 7 ∧
  vector_presentation M01_short x_cq = Raise KeyError.
Proof.
  split; [reflexivity |].
  apply (vector_presentation_key_error M01_short x_cq 7 0 mon_c 1 mon_c).
  - reflexivity.
  - reflexivity.
  - reflexivity.
  - vm_compute. by left.
  - vm_compute. intros Hin.
    apply elem_of_cons in Hin as [Heq|Hin]; [discriminate |].
    apply elem_of_cons in Hin as [Heq|Hin]; [discriminate |].
    by apply elem_of_nil in Hin.
Defined.

Lemma vector_presentation_round_trip_witness :
  ∃ v, vector_presentation M01 x_523 = Ok (Some v) ∧ basis_expansion M01 v 7 = x_523.
Proof.
  apply (vector_presentation_round_trip M01 x_523 7).
  - reflexivity.
  - reflexivity.
  - split; [reflexivity |]. apply Forall_forall. vm_compute. repeat constructor.
  - intros i c s m Hc Hz Hterm.
    destruct i as [|[|i]]; simpl in Hc; [| | done]; injection Hc as <-.
    + vm_compute in Hterm.
      apply elem_of_cons in Hterm as [Heq|Hterm]; [| by apply elem_of_nil in Hterm].
      injection Heq as -> ->. vm_compute. by left.
    + vm_compute in Hterm.
      apply elem_of_cons in Hterm as [Heq|Hterm].
      { injection Heq as -> ->. vm_compute. right. by left. }
      apply elem_of_cons in Hterm as [Heq|Hterm]; [| by apply elem_of_nil in Hterm].
      injection Heq as -> ->. vm_compute. right. right. by left.
Defined.


End SmallAlgebraFacts.


(** * Further properties of the methods *)

Section FurtherProperties.
Context {K A : Type} `{GradedAlgebra K A}.

Implicit Types (P : FreeGradedModule A) (x y : FreeGradedModuleElement A).
Implicit Types (a c : A) (v : list K).

(** ** The action as a module action *)

(** X1: the one of the algebra acts as the identity: [1 ⋆ x = x], when one
    is a left identity of the multiplication. *)
Theorem lmul_one P x :
  (∀ c, a_mul a_one c = c) → _lmul_ P x a_one = x.
Proof.
  intros Hone. destruct x as [cs].
  unfold _lmul_, element_constructor, coefficients; simpl. f_equal.
  induction cs as [|c cs IH]; csimpl; [done | by rewrite Hone, IH].
Qed.

(** X2: acting twice is acting by the product: [a ⋆ (b ⋆ x) = (a·b) ⋆ x],
    when the multiplication is associative. *)
Theorem lmul_compose P x a c :
  (∀ a b c, a_mul a (a_mul b c) = a_mul (a_mul a b) c) →
  _lmul_ P (_lmul_ P x c) a = _lmul_ P x (a_mul a c).
Proof.
  intros Hassoc. destruct x as [cs].
  unfold _lmul_, element_constructor, coefficients; simpl. f_equal.
  induction cs as [|c0 cs IH]; csimpl; [done | by rewrite Hassoc, IH].
Qed.

(** ** When [degree] returns *)

Lemma foldl_min_elem (l : list Z) (d0 : Z) : foldl Z.min d0 l ∈ d0 :: l.
Proof.
  revert d0. induction l as [|e l IH]; intros d0; simpl; [by left |].
  specialize (IH (Z.min d0 e)). apply elem_of_cons in IH as [Heq|Hin].
  - rewrite Heq. destruct (Z.min_spec d0 e) as [[_ ->]|[_ ->]]; [by left |].
    right. by left.
  - right. by right.
Qed.

Lemma foldl_max_elem (l : list Z) (d0 : Z) : foldl Z.max d0 l ∈ d0 :: l.
Proof.
  revert d0. induction l as [|e l IH]; intros d0; simpl; [by left |].
  specialize (IH (Z.max d0 e)). apply elem_of_cons in IH as [Heq|Hin].
  - rewrite Heq. destruct (Z.max_spec d0 e) as [[_ ->]|[_ ->]]; [right; by left |].
    by left.
  - right. by right.
Qed.

Lemma py_min_elem (l : list Z) (m : Z) : py_min l = Ok m → m ∈ l.
Proof. destruct l as [|d0 l]; simpl; [done |]. intros [= <-]. apply foldl_min_elem. Qed.

Lemma py_max_elem (l : list Z) (M : Z) : py_max l = Ok M → M ∈ l.
Proof. destruct l as [|d0 l]; simpl; [done |]. intros [= <-]. apply foldl_max_elem. Qed.

(** X3: [degree()] returns [n] exactly when the element is not zero and
    every nonzero coefficient has a degree that, added to the degree of
    its generator, gives [n]. *)
Theorem degree_returns_iff P x n :
  in_parent P x →
  degree P x = Ok n ↔
    is_zero x = false ∧
    ∀ i c, coefficients x !! i = Some c → a_is_zero c = false →
      ∃ g d, generator_degrees P !! i = Some g ∧ a_degree c = Ok d ∧ g + d = n.
Proof.
  intros Hx. split.
  - intros Hdeg. unfold degree in Hdeg.
    destruct (is_zero x) eqn:Hnz; [done |]. split; [done |].
    destruct (degree_loop _ _) as [ds|e] eqn:Hloop; [| by destruct e].
    destruct (py_min ds) as [m|e] eqn:Hm; simpl in Hdeg; [| done].
    destruct (py_max ds) as [M|e] eqn:HM; simpl in Hdeg; [| done].
    case_decide as Heq; [| done]. injection Hdeg as ->. subst M.
    intros i c Hc Hz.
    destruct (lookup_lt_is_Some_2 (generator_degrees P) i) as [g Hg].
    { rewrite <- Hx. by eapply lookup_lt_Some. }
    pose proof (elem_of_zip_lookup _ _ _ _ _ Hg Hc) as Hin.
    destruct (degree_loop_ok_inv _ _ _ Hloop g c Hin Hz) as [d Hd].
    destruct (degree_loop_elem _ _ _ Hloop) as [_ Hall].
    specialize (Hall g c d Hin Hz Hd).
    pose proof (py_min_le _ _ _ Hm Hall). pose proof (py_max_ge _ _ _ HM Hall).
    exists g, d. split_and!; [done.. | lia].
  - intros [Hnz Hterms].
    destruct (degree_of_nonzero P x Hx Hnz) as (ds & m & M & _ & _ & Hidx & Hm & HM & Hdeg).
    { intros c [i Hi]%list_elem_of_lookup Hz.
      destruct (Hterms i c Hi Hz) as (g & d & _ & Hd & _). eauto. }
    assert (Hall : ∀ d, d ∈ ds → d = n).
    { intros d Hd.
      assert (Hin : Some d ∈ Some <$> ds) by (by apply list_elem_of_fmap_2).
      rewrite Hidx in Hin.
      apply list_elem_of_fmap in Hin as (i & Hdi & Hi).
      apply list_elem_of_fmap in Hi as ([i' c] & -> & Hic).
      apply elem_of_filter_bool in Hic as [Hic Hz].
      apply elem_of_enumerate_from in Hic as [_ Hic]. rewrite Nat.sub_0_r in Hic.
      simpl in *. destruct (Hterms i' c Hic) as (g & dc & Hg & Hdc & Hsum).
      { by destruct (a_is_zero c). }
      unfold term_degree in Hdi. rewrite Hg, Hic, Hdc in Hdi. congruence. }
    rewrite Hdeg, (Hall m (py_min_elem _ _ Hm)), (Hall M (py_max_elem _ _ HM)).
    by rewrite decide_True.
Qed.

(** X4: the product of a nonzero homogeneous ring element [m] with the
    generator [i] has the degree of [m] plus the degree of the generator:
    the degree of a basis element. *)
Theorem degree_monomial_generator P (i : nat) (g : Z) (m : A) (d : Z) :
  generator_degrees P !! i = Some g →
  a_is_zero m = false → a_degree m = Ok d →
  a_is_zero a_zero = true → a_mul m a_one = m → a_mul m a_zero = a_zero →
  degree P (_lmul_ P (generator P i) m) = Ok (g + d).
Proof.
  intros Hg Hzm Hdm Hz0 Hone Hzero.
  pose proof (lookup_lt_Some _ _ _ Hg) as Hi.
  assert (Hcoeffs : coefficients (_lmul_ P (generator P i) m)
            = <[i := m]> (replicate (length (generator_degrees P)) a_zero)).
  { unfold _lmul_, element_constructor, generator, unit_coefficients, coefficients; simpl.
    by rewrite list_fmap_insert, fmap_replicate, Hone, Hzero. }
  apply degree_returns_iff.
  - unfold in_parent. by rewrite Hcoeffs, length_insert, length_replicate.
  - split.
    + apply is_zero_false_nonzero. exists m. split; [| done].
      rewrite Hcoeffs. apply list_elem_of_lookup. exists i.
      apply list_lookup_insert_eq. by rewrite length_replicate.
    + intros j c Hc Hzc. rewrite Hcoeffs in Hc.
      destruct (decide (i = j)) as [<-|Hne].
      * rewrite list_lookup_insert_eq in Hc by by rewrite length_replicate.
        injection Hc as <-. by exists g, d.
      * rewrite list_lookup_insert_ne in Hc by done.
        apply lookup_replicate in Hc as [-> _]. congruence.
Qed.

(** X5: the degree of [a ⋆ x] for a homogeneous [x] of degree [n], when
    the multiplication by [a] sends zero coefficients to zero and raises
    the degree of a coefficient by [d] where the product is not zero:
    [a ⋆ x] is zero and [degree()] raises the zero-element error, or its
    degree is [d + n]. *)
Theorem degree_lmul P x a n d :
  in_parent P x →
  degree P x = Ok n →
  (∀ c, c ∈ coefficients x → a_is_zero c = true → a_is_zero (a_mul a c) = true) →
  (∀ c dc, c ∈ coefficients x → a_degree c = Ok dc →
     a_is_zero (a_mul a c) = false → a_degree (a_mul a c) = Ok (d + dc)) →
  if is_zero (_lmul_ P x a)
  then degree P (_lmul_ P x a) = Raise (ValueError zero_degree_msg)
  else degree P (_lmul_ P x a) = Ok (d + n).
Proof.
  intros Hx Hdeg Hzero Hprod.
  destruct (is_zero (_lmul_ P x a)) eqn:Hnz; [unfold degree; by rewrite Hnz |].
  apply degree_returns_iff in Hdeg as [_ Hterms]; [| done].
  apply degree_returns_iff.
  { unfold in_parent, _lmul_, element_constructor, coefficients in *; simpl.
    by rewrite length_fmap. }
  split; [done |]. intros i c' Hc' Hz'.
  unfold _lmul_, element_constructor, coefficients in Hc'; simpl in Hc'.
  rewrite list_lookup_fmap in Hc'.
  destruct (dense_coefficient_list x !! i) as [c|] eqn:Hc; simpl in Hc'; [| done].
  injection Hc' as <-.
  assert (Hin : c ∈ coefficients x) by (by eapply list_elem_of_lookup_2).
  destruct (a_is_zero c) eqn:Hz; [rewrite (Hzero c Hin Hz) in Hz'; done |].
  destruct (Hterms i c Hc Hz) as (g & dc & Hg & Hdc & Hsum).
  exists g, (d + dc). split_and!; [done | by apply Hprod | lia].
Qed.

(** ** The outcomes of [vector_presentation] *)

Lemma dict_basis_value_length (V : VectorSpace) (basis : list (FreeGradedModuleElement A))
    (key : FreeGradedModuleElement A) (e : list K) :
  dict (zip basis (vs_basis V)) !! key = Some e → length e = dimension V.
Proof.
  intros (k & _ & Hk)%dict_zip_lookup. unfold vs_basis in Hk.
  rewrite list_lookup_fmap in Hk. apply fmap_Some in Hk as (k' & _ & ->).
  unfold unit_vector. by rewrite length_insert, length_replicate.
Qed.

Lemma terms_loop_length P base_dict g terms v v' (d : nat) :
  (∀ key e, base_dict !! key = Some e → length e = d) →
  length v = d →
  terms_loop P base_dict g terms v = Ok v' → length v' = d.
Proof.
  intros Hvalues. revert v. induction terms as [|[s m] terms IH]; intros v Hlen; simpl.
  - by intros [= <-].
  - unfold dict_getitem. destruct (base_dict !! _lmul_ P g m) as [e|] eqn:He; simpl; [| done].
    apply IH. unfold vec_add, vec_scale.
    rewrite length_zip_with, length_fmap, (Hvalues _ _ He). lia.
Qed.

Lemma summands_loop_length P base_dict sparse v v' (d : nat) :
  (∀ key e, base_dict !! key = Some e → length e = d) →
  length v = d →
  summands_loop P base_dict sparse v = Ok v' → length v' = d.
Proof.
  intros Hvalues. revert v. induction sparse as [|[i c] sparse IH]; intros v Hlen; simpl.
  - by intros [= <-].
  - destruct (terms_loop P base_dict (generator P i) _ v) as [v1|e] eqn:Hloop; simpl; [| done].
    apply IH. by eapply terms_loop_length.
Qed.

(** X6: a vector that [vector_presentation()] returns belongs to the
    vector space of the degree of the element: [degree()] returns some [n]
    and the vector has the dimension of [P.vector_presentation(n)]. *)
Theorem vector_presentation_length P x v :
  vector_presentation P x = Ok (Some v) →
  ∃ n, degree P x = Ok n ∧ length v = dimension (parent_vector_presentation P n).
Proof.
  unfold vector_presentation. destruct (is_zero x); [done |].
  destruct (degree P x) as [n|e]; simpl; [| done].
  destruct (summands_loop _ _ _ _) as [v'|e] eqn:Hloop; simpl; [| done].
  intros [= <-]. exists n. split; [done |].
  eapply summands_loop_length; [| | apply Hloop].
  - intros key e. apply dict_basis_value_length.
  - unfold vs_zero. apply length_replicate.
Qed.

Lemma summands_loop_raise P base_dict sparse v e :
  summands_loop P base_dict sparse v = Raise e → e = KeyError.
Proof.
  revert v. induction sparse as [|[i c] sparse IH]; intros v; simpl; [done |].
  destruct (terms_loop P base_dict (generator P i) _ v) as [v1|e1] eqn:Hloop; simpl.
  - apply IH.
  - intros [= <-]. by eapply terms_loop_raise.
Qed.

(** X7: [vector_presentation()] returns [None] exactly on the zero
    element, and an exception it raises is the one [degree()] raises on
    the element, or it is [KeyError] on an element that has a degree. *)
Theorem vector_presentation_outcomes P x :
  (vector_presentation P x = Ok None ↔ is_zero x = true) ∧
  ∀ e, vector_presentation P x = Raise e →
    is_zero x = false ∧
    (degree P x = Raise e ∨ (e = KeyError ∧ ∃ n, degree P x = Ok n)).
Proof.
  unfold vector_presentation. destruct (is_zero x) eqn:Hnz.
  { split; [done |]. intros e He. done. }
  destruct (degree P x) as [n|e0] eqn:Hdeg; simpl.
  - destruct (summands_loop _ _ _ _) as [v'|e1] eqn:Hloop; simpl.
    + split; [split; done |]. intros e He. done.
    + split; [split; done |]. intros e [= <-]. split; [done |]. right.
      split; [by eapply summands_loop_raise | eauto].
  - split; [split; done |]. intros e [= <-]. split; [done |]. by left.
Qed.

Lemma terms_loop_present P base_dict g terms v :
  (∀ s m, (s, m) ∈ terms → is_Some (base_dict !! _lmul_ P g m)) →
  ∃ v', terms_loop P base_dict g terms v = Ok v'.
Proof.
  revert v. induction terms as [|[s m] terms IH]; intros v Hkeys; simpl; [eauto |].
  destruct (Hkeys s m) as [e He]; [by left |].
  unfold dict_getitem. rewrite He. simpl. apply IH.
  intros s' m' Hin. apply (Hkeys s' m'). by right.
Qed.

Lemma summands_loop_present P base_dict sparse v :
  (∀ i c s m, (i, c) ∈ sparse → (s, m) ∈ zip (a_coefficients c) (a_monomials c) →
     is_Some (base_dict !! _lmul_ P (generator P i) m)) →
  ∃ v', summands_loop P base_dict sparse v = Ok v'.
Proof.
  revert v. induction sparse as [|[i c] sparse IH]; intros v Hkeys; simpl; [eauto |].
  destruct (terms_loop_present P base_dict (generator P i)
              (zip (a_coefficients c) (a_monomials c)) v) as [v1 Hv1].
  { intros s m Hin. apply (Hkeys i c s m); [by left | done]. }
  rewrite Hv1. simpl. apply IH.
  intros i' c' s m Hin. apply (Hkeys i' c' s m). by right.
Qed.

(** X8: on an element of degree [n], with at least one coordinate per
    basis element, [vector_presentation()] returns a vector exactly when
    every product of a monomial of a nonzero coefficient with its
    generator is among the basis elements of degree [n]; nothing else
    about the algebra or the parent is needed. *)
Theorem vector_presentation_returns_iff_covered P x n :
  degree P x = Ok n →
  (length (basis_elements P n) ≤ dimension (parent_vector_presentation P n))%nat →
  (∃ v, vector_presentation P x = Ok (Some v)) ↔ basis_covers P x n.
Proof.
  intros Hdeg Hdim.
  assert (Hnz : is_zero x = false).
  { unfold degree in Hdeg. by destruct (is_zero x). }
  split.
  - intros [v Hv] i c s m Hc Hz Hterm.
    destruct (decide (_lmul_ P (generator P i) m ∈ basis_elements P n)) as [Hin|Hnot];
      [done | exfalso].
    unfold vector_presentation in Hv. rewrite Hnz, Hdeg in Hv. simpl in Hv.
    rewrite (summands_loop_missing _ _ _ _ i c s m) in Hv; [done | | done |].
    + by apply elem_of_sparse_coeffs.
    + by apply dict_zip_missing.
  - intros Hcovers. unfold vector_presentation. rewrite Hnz, Hdeg. simpl.
    destruct (summands_loop_present P
                (dict (zip (basis_elements P n)
                           (vs_basis (parent_vector_presentation P n))))
                (List.filter (λ ic, negb (a_is_zero ic.2)) (enumerate (coefficients x)))
                (vs_zero (parent_vector_presentation P n))) as [v Hv].
    { intros i c s m [Hin Hz]%elem_of_filter_bool Hterm.
      apply elem_of_enumerate_from in Hin as [_ Hin]. rewrite Nat.sub_0_r in Hin.
      apply dict_foldl_is_Some.
      - unfold vs_basis. by rewrite length_fmap, length_seq.
      - left. apply (Hcovers i c s m Hin); [| done].
        simpl in Hz. by destruct (a_is_zero c). }
    exists v. by rewrite Hv.
Qed.

End FurtherProperties.

(** * The further properties at elements of the small algebra *)

Module SmallAlgebraMore.
Import SmallAlgebra SmallAlgebraFacts.

Lemma small_mul_one_l (c : small) : a_mul a_one c = c.
Proof. destruct c. simpl. unfold small_mul; simpl. f_equal; lia. Qed.

Lemma elem_of_pair {T : Type} (t u0 u1 : T) : t ∈ [u0; u1] → t = u0 ∨ t = u1.
Proof.
  intros [->|Hin]%elem_of_cons; [by left |].
  apply elem_of_cons in Hin as [->|Hin]; [by right | by apply elem_of_nil in Hin].
Qed.

Lemma lmul_one_witness : _lmul_ M01 x_cq a_one = x_cq.
Proof. apply (lmul_one M01 x_cq). apply small_mul_one_l. Defined.

Lemma lmul_compose_witness :
  _lmul_ M01 (_lmul_ M01 x_cq (small_of_scalar 3)) (small_of_scalar 2)
  = _lmul_ M01 x_cq (a_mul (small_of_scalar 2) (small_of_scalar 3)).
Proof.
  apply (lmul_compose M01 x_cq (small_of_scalar 2) (small_of_scalar 3)).
  apply a_mul_assoc.
Defined.

Lemma degree_returns_iff_witness :
  degree M01 x_cq = Ok 7 ↔
    is_zero x_cq = false ∧
    ∀ i c, coefficients x_cq !! i = Some c → a_is_zero c = false →
      ∃ g d, generator_degrees M01 !! i = Some g ∧ a_degree c = Ok d ∧ g + d = 7.
Proof. apply (degree_returns_iff M01 x_cq 7). reflexivity. Defined.

Lemma degree_monomial_generator_witness :
  degree M01 (_lmul_ M01 (generator M01 1) mon_a) = Ok (1 + 6).
Proof.
  apply (degree_monomial_generator M01 1 1 mon_a 6); reflexivity.
Defined.

Lemma degree_lmul_witness :
  if is_zero (_lmul_ M01 x_cq (small_of_scalar 2))
  then degree M01 (_lmul_ M01 x_cq (small_of_scalar 2)) = Raise (ValueError zero_degree_msg)
  else degree M01 (_lmul_ M01 x_cq (small_of_scalar 2)) = Ok (0 + 7).
Proof.
  apply (degree_lmul M01 x_cq (small_of_scalar 2) 7 0).
  - reflexivity.
  - reflexivity.
  - intros c [->| ->]%elem_of_pair Hz; vm_compute in Hz; discriminate.
  - intros c dc [->| ->]%elem_of_pair Hdc _; vm_compute in Hdc; injection Hdc as <-;
      reflexivity.
Defined.

(** The action of [a] sends [c*g0 + q*g1] to zero, which has no degree. *)
Lemma degree_lmul_annihilated :
  is_zero (_lmul_ M01 x_cq mon_a) = true ∧
  degree M01 (_lmul_ M01 x_cq mon_a) = Raise (ValueError zero_degree_msg).
Proof. by vm_compute. Qed.

Lemma vector_presentation_length_witness :
  ∃ n, degree M01 x_cq = Ok n ∧
       length [1; 1; 1] = dimension (parent_vector_presentation M01 n).
Proof. apply (vector_presentation_length M01 x_cq [1; 1; 1]). reflexivity. Defined.

Lemma vector_presentation_returns_iff_covered_witness :
  (∃ v, vector_presentation M01 x_cq = Ok (Some v)) ↔ basis_covers M01 x_cq 7.
Proof.
  apply (vector_presentation_returns_iff_covered M01 x_cq 7).
  - reflexivity.
  - vm_compute. lia.
Defined.

End SmallAlgebraMore.


(** * The round trip where the two lists of a decomposition are out of step *)

Module StoredOrder.
Import SmallAlgebra.

Lemma stored_order_covers : basis_covers (H0 := stored_order_algebra) M01 x_523 7.
Proof.
  intros i c s m Hc Hz Hterm.
  destruct i as [|[|i]]; simpl in Hc; [| | done]; injection Hc as <-.
  - vm_compute in Hterm.
    apply elem_of_cons in Hterm as [Heq|Hterm]; [| by apply elem_of_nil in Hterm].
    injection Heq as -> ->. vm_compute. by left.
  - vm_compute in Hterm.
    apply elem_of_cons in Hterm as [Heq|Hterm].
    { injection Heq as -> ->. vm_compute. right. right. by left. }
    apply elem_of_cons in Hterm as [Heq|Hterm]; [| by apply elem_of_nil in Hterm].
    injection Heq as -> ->. vm_compute. right. by left.
Qed.

Lemma stored_order_contract : basis_contract M01 7.
Proof. split; [reflexivity |]. apply Forall_forall. vm_compute. repeat constructor. Qed.

(** C1, where the code breaks it: the coefficient [2a - 3b] of
    [x = 5c*g0 + (2a - 3b)*g1] gives [coefficients() = [2, -3]] and
    [monomials() = [b, a]]; the element has degree 7 and the parent keeps
    its contract, and [vector_presentation()] pairs [2] with [b] and [-3]
    with [a]: it returns [(5, -3, 2)], whose sum over the basis is
    [5c*g0 + (-3a + 2b)*g1] and not [x]. *)
Lemma round_trip_breaks_on_stored_order :
  in_parent M01 x_523 ∧
  degree (H0 := stored_order_algebra) M01 x_523 = Ok 7 ∧
  basis_contract M01 7 ∧
  basis_covers (H0 := stored_order_algebra) M01 x_523 7 ∧
  basis_elements M01 7 = [Element [mon_c; small_zero];
                          Element [small_zero; mon_a];
                          Element [small_zero; mon_b]] ∧
  a_coefficients (GradedAlgebra := stored_order_algebra) (Small 0 2 (-3) 0) = [2; -3] ∧
  a_monomials (GradedAlgebra := stored_order_algebra) (Small 0 2 (-3) 0) = [mon_b; mon_a] ∧
  vector_presentation (H0 := stored_order_algebra) M01 x_523 = Ok (Some [5; -3; 2]) ∧
  basis_expansion (H0 := stored_order_algebra) M01 [5; -3; 2] 7
    = Element [Small 0 0 0 5; Small 0 (-3) 2 0] ∧
  basis_expansion (H0 := stored_order_algebra) M01 [5; -3; 2] 7 ≠ x_523 ∧
  basis_expansion (H0 := stored_order_algebra) M01 [5; 2; -3] 7 = x_523.
Proof.
  split_and!; try by vm_compute.
  - apply stored_order_contract.
  - apply stored_order_covers.
Qed.

End StoredOrder.
